(** * useRefHistory: a shallow embedding of src/composables/useRefHistory.ts

    The composable is a Vue 3 reactive program.  We model the parts of Vue's
    runtime that its behaviour depends on explicitly:
    - the source ref: a write triggers only when [hasChanged] (Object.is);
    - the [watch(source, cb)] job, which keeps its own [oldValue] and calls
      the callback only when the source value has changed since it last ran;
    - the [watchEffect] on the capacity, whose dependencies are exactly what
      its last run read: the capacity, the [history] ref and the [length] of
      the array it read.  When it replaces the array ([history.value =
      history.value.slice(0, cap)]) it has read only the old array, so later
      length changes of the new array no longer trigger it; the field
      [effectTracksHistory] records whether it currently tracks the array
      held by [history];
    - the pre-flush scheduler queue (FIFO, a queued job is not queued twice)
      and the [nextTick] callbacks, which run after the flush.

    [clone] is a JSON round trip; on the serialisable values the composable
    is specified for it returns an equal value, so it is the identity here.
    [Date.now()] reads the field [now] of the state, which the environment
    advances. *)

From Stdlib Require Import List ZArith Bool Lia.
Import ListNotations.

(** Resolved capacity: [toValue(capacity)], a non-negative integer or the
    default [Infinity]. *)
Inductive Cap : Type :=
| Fin (n : nat)
| Inf.

Definition cap_eqb (a b : Cap) : bool :=
  match a, b with
  | Fin x, Fin y => Nat.eqb x y
  | Inf, Inf => true
  | _, _ => false
  end.

(** [cap === n] for an array length [n]. *)
Definition cap_is (c : Cap) (n : nat) : bool :=
  match c with
  | Fin m => Nat.eqb m n
  | Inf => false
  end.

(** [n > cap]. *)
Definition exceeds (n : nat) (c : Cap) : bool :=
  match c with
  | Fin m => Nat.ltb m n
  | Inf => false
  end.

(** [arr.slice(0, cap)]. *)
Definition slice0 {A : Type} (c : Cap) (l : list A) : list A :=
  match c with
  | Fin m => firstn m l
  | Inf => l
  end.

(** [Math.min(n, cap)], used to state the expected history length. *)
Definition cap_min (n : nat) (c : Cap) : nat :=
  match c with
  | Fin m => Nat.min n m
  | Inf => n
  end.

Section RefHistory.

Variable T : Type.
Variable T_eq_dec : forall x y : T, {x = y} + {x <> y}.

(** Vue's [hasChanged] (negated [Object.is]). *)
Definition hasChanged (x y : T) : bool :=
  if T_eq_dec x y then false else true.

Record HistoryRecord : Type := mkRecord {
  value : T;
  timestamp : Z
}.

(** Jobs of the pre-flush queue: the [watch(source, ...)] job and the
    [watchEffect] on the capacity. *)
Inductive Job : Type :=
| WatchJob
| EffectJob.

Definition job_eqb (a b : Job) : bool :=
  match a, b with
  | WatchJob, WatchJob | EffectJob, EffectJob => true
  | _, _ => false
  end.

(** Callbacks registered with [nextTick]. *)
Inductive TickCb : Type :=
| ClearUndo
| ClearRedo.

Record Tracker : Type := mkTracker {
  source : T;                      (* source.value *)
  history : list HistoryRecord;    (* history.value *)
  future : list HistoryRecord;     (* future.value *)
  doingUndo : bool;
  doingRedo : bool;
  lastChanged : Z;
  capacity : Cap;                  (* current value of toValue(capacity) *)
  now : Z;                         (* Date.now() *)
  watchOld : T;                    (* the watch job's oldValue *)
  effectTracksHistory : bool;      (* watchEffect subscribed to history.value.length *)
  queue : list Job;                (* pre-flush scheduler queue *)
  ticks : list TickCb              (* pending nextTick callbacks *)
}.

Definition set_source (v : T) (s : Tracker) : Tracker :=
  mkTracker v (history s) (future s) (doingUndo s) (doingRedo s) (lastChanged s)
    (capacity s) (now s) (watchOld s) (effectTracksHistory s) (queue s) (ticks s).
Definition set_history (h : list HistoryRecord) (s : Tracker) : Tracker :=
  mkTracker (source s) h (future s) (doingUndo s) (doingRedo s) (lastChanged s)
    (capacity s) (now s) (watchOld s) (effectTracksHistory s) (queue s) (ticks s).
Definition set_future (f : list HistoryRecord) (s : Tracker) : Tracker :=
  mkTracker (source s) (history s) f (doingUndo s) (doingRedo s) (lastChanged s)
    (capacity s) (now s) (watchOld s) (effectTracksHistory s) (queue s) (ticks s).
Definition set_doingUndo (b : bool) (s : Tracker) : Tracker :=
  mkTracker (source s) (history s) (future s) b (doingRedo s) (lastChanged s)
    (capacity s) (now s) (watchOld s) (effectTracksHistory s) (queue s) (ticks s).
Definition set_doingRedo (b : bool) (s : Tracker) : Tracker :=
  mkTracker (source s) (history s) (future s) (doingUndo s) b (lastChanged s)
    (capacity s) (now s) (watchOld s) (effectTracksHistory s) (queue s) (ticks s).
Definition set_lastChanged (t : Z) (s : Tracker) : Tracker :=
  mkTracker (source s) (history s) (future s) (doingUndo s) (doingRedo s) t
    (capacity s) (now s) (watchOld s) (effectTracksHistory s) (queue s) (ticks s).
Definition set_capacity (c : Cap) (s : Tracker) : Tracker :=
  mkTracker (source s) (history s) (future s) (doingUndo s) (doingRedo s) (lastChanged s)
    c (now s) (watchOld s) (effectTracksHistory s) (queue s) (ticks s).
Definition set_now (t : Z) (s : Tracker) : Tracker :=
  mkTracker (source s) (history s) (future s) (doingUndo s) (doingRedo s) (lastChanged s)
    (capacity s) t (watchOld s) (effectTracksHistory s) (queue s) (ticks s).
Definition set_watchOld (v : T) (s : Tracker) : Tracker :=
  mkTracker (source s) (history s) (future s) (doingUndo s) (doingRedo s) (lastChanged s)
    (capacity s) (now s) v (effectTracksHistory s) (queue s) (ticks s).
Definition set_effectTracksHistory (b : bool) (s : Tracker) : Tracker :=
  mkTracker (source s) (history s) (future s) (doingUndo s) (doingRedo s) (lastChanged s)
    (capacity s) (now s) (watchOld s) b (queue s) (ticks s).
Definition set_queue (q : list Job) (s : Tracker) : Tracker :=
  mkTracker (source s) (history s) (future s) (doingUndo s) (doingRedo s) (lastChanged s)
    (capacity s) (now s) (watchOld s) (effectTracksHistory s) q (ticks s).
Definition set_ticks (k : list TickCb) (s : Tracker) : Tracker :=
  mkTracker (source s) (history s) (future s) (doingUndo s) (doingRedo s) (lastChanged s)
    (capacity s) (now s) (watchOld s) (effectTracksHistory s) (queue s) k.

(** [queueJob]: a job already waiting in the queue is not added again. *)
Definition queueJob (j : Job) (s : Tracker) : Tracker :=
  if existsb (job_eqb j) (queue s) then s else set_queue (queue s ++ [j]) s.

(** [nextTick(cb)]. *)
Definition nextTick (c : TickCb) (s : Tracker) : Tracker :=
  set_ticks (ticks s ++ [c]) s.

(** [source.value = v]: the ref setter triggers the watch only on a change. *)
Definition write_source (v : T) (s : Tracker) : Tracker :=
  if hasChanged v (source s) then queueJob WatchJob (set_source v s)
  else set_source v s.

(** An in-place mutation of the history array ([pop], [shift], [unshift]):
    a change of its length triggers the watchEffect when it tracks this
    array. *)
Definition mutate_history (h : list HistoryRecord) (s : Tracker) : Tracker :=
  let s' := set_history h s in
  if negb (Nat.eqb (length h) (length (history s))) && effectTracksHistory s
  then queueJob EffectJob s' else s'.

(** The watch callback, lines 35-65. *)
Definition watch_cb (newVal oldValue : T) (s : Tracker) : Tracker :=
  if doingUndo s || doingRedo s then s else
  let s := set_future [] s in
  let cap := capacity s in
  if cap_is cap 0 then s else
  let s := if cap_is cap (length (history s))
           then mutate_history (removelast (history s)) s else s in
  let s := mutate_history (mkRecord oldValue (lastChanged s) :: history s) s in
  set_lastChanged (now s) s.

(** The job Vue schedules for [watch(source, cb)]: it calls [cb] when the
    source has changed since the job last ran, then remembers the value. *)
Definition watch_job (s : Tracker) : Tracker :=
  let newValue := source s in
  if hasChanged newValue (watchOld s)
  then set_watchOld newValue (watch_cb newValue (watchOld s) s)
  else s.

(** The watchEffect body, lines 111-118.  Its [history.value = ...] does not
    re-trigger the running effect; after it the effect tracks only the array
    it read, not the new one. *)
Definition effect_run (s : Tracker) : Tracker :=
  let cap := capacity s in
  if exceeds (length (history s)) cap
  then set_effectTracksHistory false (set_history (slice0 cap (history s)) s)
  else set_effectTracksHistory true s.

(** undo, lines 68-90. *)
Definition undo (s : Tracker) : Tracker :=
  let s := set_doingUndo true s in
  let s := match history s with
           | [] => s
           | record :: rest =>
               let s := mutate_history rest s in
               let s := set_future (mkRecord (source s) (now s) :: future s) s in
               write_source (value record) s
           end in
  nextTick ClearUndo s.

(** redo, lines 93-108. *)
Definition redo (s : Tracker) : Tracker :=
  let s := set_doingRedo true s in
  let s := match future s with
           | [] => s
           | record :: rest =>
               let s := set_future rest s in
               let s := mutate_history (mkRecord (source s) (now s) :: history s) s in
               write_source (value record) s
           end in
  nextTick ClearRedo s.

(** Writing the capacity ref (or the state a capacity getter reads): the
    watchEffect, which always reads the capacity first, is triggered on a
    change. *)
Definition set_cap (c : Cap) (s : Tracker) : Tracker :=
  if cap_eqb c (capacity s) then s else queueJob EffectJob (set_capacity c s).

Definition run_job (j : Job) (s : Tracker) : Tracker :=
  match j with
  | WatchJob => watch_job s
  | EffectJob => effect_run s
  end.

(** Flushing the pre-flush queue.  A flush runs at most three jobs (the
    effect, the watch, and the effect again when the watch callback changed
    the history length), so four steps of fuel always empty the queue. *)
Fixpoint flush (fuel : nat) (s : Tracker) : Tracker :=
  match fuel with
  | O => s
  | S fuel' =>
      match queue s with
      | [] => s
      | j :: q => flush fuel' (run_job j (set_queue q s))
      end
  end.

Definition run_tick (s : Tracker) (c : TickCb) : Tracker :=
  match c with
  | ClearUndo => set_doingUndo false s
  | ClearRedo => set_doingRedo false s
  end.

(** The flush, then the [nextTick] callbacks. *)
Definition settle (s : Tracker) : Tracker :=
  let s := flush 4 s in
  set_ticks [] (fold_left run_tick (ticks s) s).

(** What the environment does between two settling points. *)
Inductive Action : Type :=
| Assign (v : T)          (* source.value = v *)
| Undo                    (* undo() *)
| Redo                    (* redo() *)
| SetCapacity (c : Cap)   (* the capacity ref/getter now yields c *)
| Advance (d : Z).        (* time passes: Date.now() grows by d *)

Definition act (a : Action) (s : Tracker) : Tracker :=
  match a with
  | Assign v => write_source v s
  | Undo => undo s
  | Redo => redo s
  | SetCapacity c => set_cap c s
  | Advance d => set_now (now s + d) s
  end.

(** One action followed by settling ([await nextTick()]). *)
Definition step (a : Action) (s : Tracker) : Tracker := settle (act a s).

Definition run (l : list Action) (s : Tracker) : Tracker :=
  fold_left (fun s a => step a s) l s.

(** [useRefHistory(source, capacity)] called at time [t]: [lastChanged =
    Date.now()], the watch records the source's value as its oldValue, and
    the watchEffect runs once immediately. *)
Definition useRefHistory (src : T) (cap : Cap) (t : Z) : Tracker :=
  effect_run (mkTracker src [] [] false false t cap t src false [] []).

Inductive reachable : Tracker -> Prop :=
| reach_init src cap t : reachable (useRefHistory src cap t)
| reach_step a s : reachable s -> reachable (step a s).

Definition values (l : list HistoryRecord) : list T := map value l.

(** Settled states: nothing queued, no pending [nextTick], both flags
    cleared, and the watch's oldValue is the current source value. *)
Definition idle (s : Tracker) : Prop :=
  queue s = [] /\ ticks s = [] /\ doingUndo s = false /\ doingRedo s = false /\
  watchOld s = source s.

(** While the watchEffect tracks the current history array, the history
    fits in the capacity. *)
Definition bounded (s : Tracker) : Prop :=
  effectTracksHistory s = true -> exceeds (length (history s)) (capacity s) = false.

(** The history the watch callback leaves when the capacity is not 0. *)
Definition cb_history (cap : Cap) (r : HistoryRecord) (h : list HistoryRecord) :=
  r :: (if cap_is cap (length h) then removelast h else h).

(** Each value of [vs], in order, differs from the one before it (the first
    from [v0]): every assignment is a mutation the ref reports. *)
Fixpoint all_change (v0 : T) (vs : list T) : bool :=
  match vs with
  | [] => true
  | v :: vs' => hasChanged v v0 && all_change v vs'
  end.

(** The values the tracker can move through with undo() and redo(): the
    history oldest first, the current value, then the future nearest
    first. *)
Definition timeline (s : Tracker) : list T :=
  rev (values (history s)) ++ source s :: values (future s).

(** A list of actions in which the capacity never changes. *)
Fixpoint no_capacity_change (l : list Action) : bool :=
  match l with
  | [] => true
  | SetCapacity _ :: _ => false
  | _ :: l' => no_capacity_change l'
  end.

(** A list of actions none of which sets the capacity to 0. *)
Fixpoint no_zero_capacity (l : list Action) : bool :=
  match l with
  | [] => true
  | SetCapacity (Fin 0) :: _ => false
  | _ :: l' => no_zero_capacity l'
  end.

(** No two neighbouring values of [l] are the same. *)
Fixpoint no_repeat_adjacent (l : list T) : bool :=
  match l with
  | [] => true
  | x :: l' =>
      match l' with
      | [] => true
      | y :: _ => hasChanged x y && no_repeat_adjacent l'
      end
  end.

End RefHistory.

Arguments mkRecord {T}.
Arguments value {T}.
Arguments timestamp {T}.
Arguments Assign {T}.
Arguments Undo {T}.
Arguments Redo {T}.
Arguments SetCapacity {T}.
Arguments Advance {T}.
Arguments source {T}.
Arguments history {T}.
Arguments future {T}.
Arguments doingUndo {T}.
Arguments doingRedo {T}.
Arguments lastChanged {T}.
Arguments capacity {T}.
Arguments now {T}.
Arguments watchOld {T}.
Arguments effectTracksHistory {T}.
Arguments queue {T}.
Arguments ticks {T}.
Arguments values {T}.
Arguments idle {T}.
Arguments bounded {T}.
Arguments cb_history {T}.
Arguments timeline {T}.
Arguments no_capacity_change {T}.
Arguments no_zero_capacity {T}.

Section Proofs.
Variable T : Type.
Variable T_eq_dec : forall x y : T, {x = y} + {x <> y}.

Lemma length_removelast_ne (A : Type) (l : list A) :
  l <> [] -> length (removelast l) <> length l.
Proof.
  intros Hl. destruct l as [|x l]; [congruence|].
  rewrite (app_removelast_last x (l := x :: l)) at 2 by exact Hl.
  rewrite length_app; simpl; lia.
Qed.

Lemma length_removelast_pred (A : Type) (l : list A) :
  l <> [] -> length (removelast l) = length l - 1.
Proof.
  intros Hl. destruct l as [|x l]; [congruence|].
  rewrite (app_removelast_last x (l := x :: l)) at 2 by exact Hl.
  rewrite length_app; simpl; lia.
Qed.

Lemma eqb_succ_l (m : nat) : Nat.eqb (S m) m = false.
Proof. apply Nat.eqb_neq; lia. Qed.

Lemma watch_cb_spec v old (s : Tracker T) :
  doingUndo s = false -> doingRedo s = false -> queue s = [] ->
  watch_cb T v old s =
  if cap_is (capacity s) 0 then set_future T [] s
  else mkTracker T (source s) (cb_history (capacity s) (mkRecord old (lastChanged s)) (history s))
         [] false false (now s) (capacity s) (now s) (watchOld s) (effectTracksHistory s)
         (if effectTracksHistory s then [EffectJob] else []) (ticks s).
Proof.
  destruct s as [src h f du dr lc cap t wo tr q k]; simpl; intros -> -> ->.
  unfold watch_cb, cb_history, mutate_history; cbn -[Nat.eqb length removelast].
  destruct (cap_is cap 0) eqn:H0; [reflexivity|].
  destruct (cap_is cap (length h)) eqn:Hl.
  - assert (h <> []) by (intros ->; simpl in Hl; congruence).
    destruct (Nat.eqb (length (removelast h)) (length h)) eqn:E.
    + apply Nat.eqb_eq in E. exfalso; eapply length_removelast_ne; eauto.
    + destruct tr; cbn -[Nat.eqb length removelast];
      change (length (_ :: removelast h)) with (S (length (removelast h)));
      rewrite eqb_succ_l; reflexivity.
  - destruct tr; cbn -[Nat.eqb length removelast];
    change (length (_ :: h)) with (S (length h)); rewrite eqb_succ_l; reflexivity.
Qed.

Lemma flush_step n (s : Tracker T) j q :
  queue s = j :: q ->
  flush T T_eq_dec (S n) s = flush T T_eq_dec n (run_job T T_eq_dec j (set_queue T q s)).
Proof. intros Hq. simpl. rewrite Hq. reflexivity. Qed.

Lemma flush_done n (s : Tracker T) : queue s = [] -> flush T T_eq_dec n s = s.
Proof. intros Hq. destruct n; simpl; [|rewrite Hq]; reflexivity. Qed.

Lemma tracker_eta (s : Tracker T) :
  mkTracker T (source s) (history s) (future s) (doingUndo s) (doingRedo s) (lastChanged s)
    (capacity s) (now s) (watchOld s) (effectTracksHistory s) (queue s) (ticks s) = s.
Proof. destruct s; reflexivity. Qed.

Lemma cb_history_bounded cap (r : HistoryRecord T) h :
  cap_is cap 0 = false -> exceeds (length h) cap = false ->
  exceeds (length (cb_history cap r h)) cap = false.
Proof.
  unfold cb_history. destruct cap as [m|]; simpl; [|reflexivity].
  intros H0 Hle. apply Nat.eqb_neq in H0. apply Nat.ltb_ge in Hle. apply Nat.ltb_ge.
  destruct (Nat.eqb m (length h)) eqn:E.
  - apply Nat.eqb_eq in E. destruct h as [|x h]; simpl in *; [lia|].
    pose proof (app_removelast_last x (l := x :: h) ltac:(discriminate)) as Hl.
    apply (f_equal (@length _)) in Hl. rewrite length_app in Hl. simpl in Hl. lia.
  - apply Nat.eqb_neq in E. lia.
Qed.

Lemma step_assign_same (s : Tracker T) :
  idle s -> step T T_eq_dec (Assign (source s)) s = s.
Proof.
  destruct s as [src h f du dr lc cap t wo tr q k].
  intros (Hq & Hk & Hu & Hr & Hw); simpl in *; subst.
  unfold step, act, write_source, hasChanged; simpl source.
  destruct (T_eq_dec src src) as [_|n]; [|congruence].
  unfold settle. rewrite flush_done by reflexivity. reflexivity.
Qed.

Lemma step_assign (s : Tracker T) v :
  idle s -> bounded s -> v <> source s ->
  step T T_eq_dec (Assign v) s =
  if cap_is (capacity s) 0
  then mkTracker T v (history s) [] false false (lastChanged s) (capacity s) (now s) v
         (effectTracksHistory s) [] []
  else mkTracker T v (cb_history (capacity s) (mkRecord (source s) (lastChanged s)) (history s))
         [] false false (now s) (capacity s) (now s) v (effectTracksHistory s) [] [].
Proof.
  destruct s as [src h f du dr lc cap t wo tr q k].
  intros (Hq & Hk & Hu & Hr & Hw) Hb Hv; unfold bounded in Hb; simpl in *; subst.
  unfold step, act, write_source, hasChanged; simpl source.
  destruct (T_eq_dec v src) as [|_]; [congruence|].
  unfold queueJob, settle.
  rewrite (flush_step 3 _ WatchJob []) by reflexivity. simpl run_job.
  unfold watch_job, hasChanged; cbn [set_queue set_source source watchOld].
  destruct (T_eq_dec v src) as [|_]; [congruence|].
  rewrite watch_cb_spec by reflexivity. cbn -[flush cb_history].
  destruct (cap_is cap 0) eqn:H0.
  - rewrite flush_done by reflexivity. reflexivity.
  - destruct tr.
    + rewrite (flush_step 2 _ EffectJob []) by reflexivity. simpl run_job.
      unfold effect_run. cbn -[flush cb_history].
      rewrite cb_history_bounded by auto. rewrite flush_done by reflexivity. reflexivity.
    + rewrite flush_done by reflexivity. reflexivity.
Qed.

Lemma exceeds_pred n c : exceeds (S n) c = false -> exceeds n c = false.
Proof.
  destruct c as [m|]; simpl; [|reflexivity].
  intros H. apply Nat.ltb_ge in H. apply Nat.ltb_ge. lia.
Qed.

Lemma len_cons_l (x : HistoryRecord T) l : Nat.eqb (length (x :: l)) (length l) = false.
Proof. apply eqb_succ_l. Qed.

Lemma len_cons_r (x : HistoryRecord T) l : Nat.eqb (length l) (length (x :: l)) = false.
Proof. rewrite Nat.eqb_sym. apply eqb_succ_l. Qed.

Lemma watch_cb_suppressed v old (s : Tracker T) :
  doingUndo s = true \/ doingRedo s = true -> watch_cb T v old s = s.
Proof.
  intros [H|H]; unfold watch_cb; rewrite H; [reflexivity|].
  destruct (doingUndo s); reflexivity.
Qed.

(** Evaluates the record updates and the control flow of the model, leaving
    [flush], [watch_cb] and the arithmetic on lengths folded. *)
Ltac norm :=
  cbv beta iota zeta delta [set_source set_history set_future set_doingUndo set_doingRedo
    set_lastChanged set_capacity set_now set_watchOld set_effectTracksHistory set_queue
    set_ticks nextTick queueJob mutate_history write_source hasChanged run_job effect_run
    watch_job undo redo set_cap act settle step run_tick fold_left source history future
    doingUndo doingRedo lastChanged capacity now watchOld effectTracksHistory queue ticks
    existsb job_eqb orb andb negb app].

Ltac run_flush_once :=
  first [ rewrite flush_done by reflexivity
        | erewrite flush_step by reflexivity
        | rewrite watch_cb_suppressed by (simpl; auto)
        | rewrite watch_cb_spec by reflexivity
        | rewrite len_cons_l
        | rewrite len_cons_r
        | rewrite length_cons
        | match goal with
          | H : ?e = true |- context [?e] => rewrite H
          | H : ?e = false |- context [?e] => rewrite H
          | |- context [T_eq_dec ?x ?x] =>
              destruct (T_eq_dec x x) as [_|]; [|congruence]
          | |- context [T_eq_dec ?x ?y] =>
              let E := fresh "E" in
              destruct (T_eq_dec x y) as [E|E]; [try subst y|]; try congruence
          end ];
  norm.

Ltac run_flush := norm; repeat progress run_flush_once.

Lemma step_undo_nil (s : Tracker T) :
  idle s -> history s = [] -> step T T_eq_dec Undo s = s.
Proof.
  destruct s as [src h f du dr lc cap t wo tr q k].
  intros (Hq & Hk & Hu & Hr & Hw) Hh; simpl in *; subst.
  run_flush. reflexivity.
Qed.

Lemma step_undo (s : Tracker T) r rest :
  idle s -> bounded s -> history s = r :: rest ->
  step T T_eq_dec Undo s =
  mkTracker T (value r) rest (mkRecord (source s) (now s) :: future s) false false
    (lastChanged s) (capacity s) (now s) (value r) (effectTracksHistory s) [] [].
Proof.
  destruct s as [src h f du dr lc cap t wo tr q k].
  intros (Hq & Hk & Hu & Hr & Hw) Hb Hh; unfold bounded in Hb; simpl in *; subst.
  change (length (r :: rest)) with (S (length rest)) in Hb.
  destruct tr; [specialize (Hb eq_refl); apply exceeds_pred in Hb|];
    run_flush; reflexivity.
Qed.

Lemma step_redo_nil (s : Tracker T) :
  idle s -> future s = [] -> step T T_eq_dec Redo s = s.
Proof.
  destruct s as [src h f du dr lc cap t wo tr q k].
  intros (Hq & Hk & Hu & Hr & Hw) Hf; simpl in *; subst.
  run_flush. reflexivity.
Qed.

Lemma step_redo (s : Tracker T) r rest :
  idle s -> future s = r :: rest ->
  step T T_eq_dec Redo s =
  let nh := mkRecord (source s) (now s) :: history s in
  if effectTracksHistory s && exceeds (length nh) (capacity s)
  then mkTracker T (value r) (slice0 (capacity s) nh) rest false false
         (lastChanged s) (capacity s) (now s) (value r) false [] []
  else mkTracker T (value r) nh rest false false
         (lastChanged s) (capacity s) (now s) (value r) (effectTracksHistory s) [] [].
Proof.
  destruct s as [src h f du dr lc cap t wo tr q k].
  intros (Hq & Hk & Hu & Hr & Hw) Hf; simpl in *; subst.
  cbv zeta.
  destruct tr; [destruct (exceeds (S (length h)) cap) eqn:E|];
    run_flush; reflexivity.
Qed.

Lemma step_set_capacity (s : Tracker T) c :
  idle s ->
  step T T_eq_dec (SetCapacity c) s =
  if cap_eqb c (capacity s) then s
  else if exceeds (length (history s)) c
  then mkTracker T (source s) (slice0 c (history s)) (future s) false false
         (lastChanged s) c (now s) (source s) false [] []
  else mkTracker T (source s) (history s) (future s) false false
         (lastChanged s) c (now s) (source s) true [] [].
Proof.
  destruct s as [src h f du dr lc cap t wo tr q k].
  intros (Hq & Hk & Hu & Hr & Hw); simpl in *; subst.
  destruct (cap_eqb c cap) eqn:E1; [|destruct (exceeds (length h) c) eqn:E2];
    run_flush; reflexivity.
Qed.

Lemma step_advance (s : Tracker T) d :
  idle s -> step T T_eq_dec (Advance d) s = set_now T (now s + d) s.
Proof.
  destruct s as [src h f du dr lc cap t wo tr q k].
  intros (Hq & Hk & Hu & Hr & Hw); simpl in *; subst.
  run_flush. reflexivity.
Qed.

Lemma init_inv src cap t :
  idle (useRefHistory T src cap t) /\ bounded (useRefHistory T src cap t).
Proof.
  unfold useRefHistory, effect_run, idle, bounded; simpl.
  destruct cap; simpl; repeat split; auto.
Qed.

Lemma step_inv a (s : Tracker T) :
  idle s -> bounded s -> idle (step T T_eq_dec a s) /\ bounded (step T T_eq_dec a s).
Proof.
  intros Hi Hb. pose proof Hi as (Hq & Hk & Hu & Hr & Hw).
  destruct a as [v| | |c|d].
  - destruct (T_eq_dec v (source s)) as [->|Hv].
    + rewrite step_assign_same by exact Hi. auto.
    + rewrite step_assign by assumption.
      destruct (cap_is (capacity s) 0) eqn:H0;
        unfold idle, bounded in *; cbn -[cb_history length]; repeat split; auto.
      intros Ht. apply cb_history_bounded; auto.
  - destruct (history s) as [|r rest] eqn:Hh.
    + rewrite step_undo_nil by assumption. auto.
    + rewrite (step_undo s r rest) by assumption.
      unfold idle, bounded in *; simpl; repeat split; auto.
      intros Ht. apply exceeds_pred. rewrite Hh in Hb. exact (Hb Ht).
  - destruct (future s) as [|r rest] eqn:Hf.
    + rewrite step_redo_nil by assumption. auto.
    + rewrite (step_redo s r rest) by assumption. cbv zeta.
      destruct (effectTracksHistory s && exceeds (length (mkRecord (source s) (now s) :: history s)) (capacity s)) eqn:E;
        unfold idle, bounded in *; simpl in *; repeat split; auto; try discriminate.
      intros Ht. rewrite Ht in E. exact E.
  - rewrite step_set_capacity by assumption.
    destruct (cap_eqb c (capacity s)); [auto|].
    destruct (exceeds (length (history s)) c) eqn:E;
      unfold idle, bounded in *; simpl; repeat split; auto; discriminate.
  - rewrite step_advance by assumption.
    unfold idle, bounded in *; simpl; repeat split; auto.
Qed.

Lemma reachable_inv (s : Tracker T) : reachable T T_eq_dec s -> idle s /\ bounded s.
Proof.
  induction 1 as [src cap t|a s _ [Hi Hb]].
  - apply init_inv.
  - apply step_inv; assumption.
Qed.

Lemma reachable_run l (s : Tracker T) :
  reachable T T_eq_dec s -> reachable T T_eq_dec (run T T_eq_dec l s).
Proof.
  revert s; induction l as [|a l IH]; intros s Hs; simpl; [exact Hs|].
  apply IH. constructor. exact Hs.
Qed.

Lemma cap_min_not_exceeds k c : exceeds (cap_min k c) c = false.
Proof.
  destruct c as [m|]; simpl; [|reflexivity]. apply Nat.ltb_ge. lia.
Qed.

Lemma length_cb_history cap (r : HistoryRecord T) h k :
  cap_is cap 0 = false -> length h = cap_min k cap ->
  length (cb_history cap r h) = cap_min (S k) cap.
Proof.
  unfold cb_history. destruct cap as [m|]; cbn [cap_is cap_min length]; [|intros; lia].
  intros H0 Hl. apply Nat.eqb_neq in H0.
  destruct (Nat.eqb m (length h)) eqn:E.
  - apply Nat.eqb_eq in E. rewrite length_removelast_pred by (intros ->; simpl in E; lia).
    lia.
  - apply Nat.eqb_neq in E. lia.
Qed.

Lemma run_cons a l (s : Tracker T) :
  run T T_eq_dec (a :: l) s = run T T_eq_dec l (step T T_eq_dec a s).
Proof. reflexivity. Qed.

Lemma run_assign_length vs (s : Tracker T) k :
  idle s -> length (history s) = cap_min k (capacity s) ->
  all_change T T_eq_dec (source s) vs = true ->
  length (history (run T T_eq_dec (map Assign vs) s)) = cap_min (k + length vs) (capacity s).
Proof.
  revert s k; induction vs as [|v vs IH]; intros s k Hi Hl Hc.
  - simpl. rewrite Nat.add_0_r. exact Hl.
  - change (map Assign (v :: vs)) with (Assign v :: map (@Assign T) vs).
    rewrite run_cons. simpl in Hc.
    change (length (v :: vs)) with (S (length vs)).
    apply andb_prop in Hc as [Hv Hc]. unfold hasChanged in Hv.
    destruct (T_eq_dec v (source s)) as [|Hne]; [discriminate|].
    assert (Hb : bounded s) by (intros _; rewrite Hl; apply cap_min_not_exceeds).
    rewrite step_assign by assumption.
    replace (k + S (length vs)) with (S k + length vs) by lia.
    destruct (cap_is (capacity s) 0) eqn:H0.
    + rewrite (IH _ (S k)); [reflexivity| | |simpl; exact Hc].
      * unfold idle in *; simpl; intuition.
      * simpl. rewrite Hl. destruct (capacity s) as [[|m]|]; simpl in *; try discriminate; lia.
    + rewrite (IH _ (S k)); [reflexivity| | |simpl; exact Hc].
      * unfold idle in *; simpl; intuition.
      * cbn -[cb_history length]. apply length_cb_history; assumption.
Qed.

(** C1: from a freshly created tracker with a fixed capacity, after any
    sequence of N assignments each of which changes the source (so each is
    a mutation the watch reports), and each followed by settling, the
    history holds min(N, capacity) records. *)
Theorem history_length_is_min_mutations_capacity src cap t vs :
  all_change T T_eq_dec src vs = true ->
  length (history (run T T_eq_dec (map Assign vs) (useRefHistory T src cap t))) =
  cap_min (length vs) cap.
Proof.
  intros Hc. destruct (init_inv src cap t) as [Hi _].
  assert (Hcap : capacity (useRefHistory T src cap t) = cap) by (destruct cap; reflexivity).
  assert (Hsrc : source (useRefHistory T src cap t) = src) by (destruct cap; reflexivity).
  rewrite (run_assign_length vs _ 0 Hi); rewrite ?Hcap, ?Hsrc; [reflexivity| |exact Hc].
  destruct cap; reflexivity.
Qed.

(** C3: for every reachable state, an assignment that changes the source
    (so the watch callback runs outside undo/redo) leaves the future empty
    once settled; when the resolved capacity is 0 the history is left as it
    was, yet the future is still cleared. *)
Theorem external_mutation_clears_future (s : Tracker T) v :
  reachable T T_eq_dec s -> v <> source s ->
  future (step T T_eq_dec (Assign v) s) = [] /\
  (capacity s = Fin 0 -> history (step T T_eq_dec (Assign v) s) = history s).
Proof.
  intros Hr Hv. destruct (reachable_inv s Hr) as [Hi Hb].
  rewrite step_assign by assumption.
  destruct (cap_is (capacity s) 0) eqn:H0; split; intros; try reflexivity.
  match goal with Hc : capacity s = Fin 0 |- _ => rewrite Hc in H0; discriminate end.
Qed.

(** C4: for every reachable state with a non-empty history, undo() followed
    by redo() (each settled) gives back the source value and history and
    future holding the same values in the same order as before the undo. *)
Theorem undo_redo_roundtrip (s : Tracker T) :
  reachable T T_eq_dec s -> history s <> [] ->
  let s' := step T T_eq_dec Redo (step T T_eq_dec Undo s) in
  source s' = source s /\ values (history s') = values (history s) /\
  values (future s') = values (future s).
Proof.
  intros Hr Hne. destruct (reachable_inv s Hr) as [Hi Hb].
  destruct (history s) as [|r rest] eqn:Hh; [congruence|].
  rewrite (step_undo s r rest) by assumption.
  rewrite (step_redo _ (mkRecord (source s) (now s)) (future s)).
  2: { unfold idle in *; simpl; intuition. }
  2: reflexivity.
  cbv zeta. cbn [effectTracksHistory history capacity source future].
  destruct (effectTracksHistory s) eqn:Ht.
  - unfold bounded in Hb. rewrite Hh in Hb. cbn [length] in Hb |- *.
    rewrite (Hb Ht). simpl. auto.
  - simpl. auto.
Qed.

(** C5: in every reachable state, when the resolved capacity changes to a
    value [c] below the history length, the settled history is its first
    (newest) [c] records, with source and future untouched; any later
    capacity change, in particular an increase, leaves a prefix of that
    history and never brings back a dropped record. *)
Theorem capacity_shrink_truncates (s : Tracker T) c :
  reachable T T_eq_dec s -> capacity s <> Fin c -> c < length (history s) ->
  let s1 := step T T_eq_dec (SetCapacity (Fin c)) s in
  history s1 = firstn c (history s) /\ source s1 = source s /\ future s1 = future s /\
  forall c2, exists dropped, history s1 = history (step T T_eq_dec (SetCapacity c2) s1) ++ dropped.
Proof.
  intros Hr Hc Hlt. destruct (reachable_inv s Hr) as [Hi _].
  assert (E1 : cap_eqb (Fin c) (capacity s) = false).
  { destruct (capacity s) as [m|]; [|reflexivity]. simpl.
    apply Nat.eqb_neq. intros ->. congruence. }
  assert (E2 : exceeds (length (history s)) (Fin c) = true) by (apply Nat.ltb_lt; exact Hlt).
  cbv zeta. rewrite step_set_capacity, E1, E2 by exact Hi. cbn [history source future slice0].
  repeat split; auto. intros c2.
  rewrite step_set_capacity by (unfold idle; simpl; auto). cbn [history capacity].
  destruct (cap_eqb c2 (Fin c)); cbn [history]; [exists []; rewrite app_nil_r; reflexivity|].
  destruct (exceeds (length (firstn c (history s))) c2); cbn [history];
    [|exists []; rewrite app_nil_r; reflexivity].
  destruct c2 as [m|]; cbn [slice0].
  - exists (skipn m (firstn c (history s))). symmetry. apply firstn_skipn.
  - exists []. rewrite app_nil_r. reflexivity.
Qed.

(** C8: in every reachable state, undo() with an empty history and redo()
    with an empty future change nothing once settled: the source, history,
    future and every other part of the state are as before, in particular
    the [doingUndo]/[doingRedo] flags are cleared again. *)
Theorem undo_redo_empty_noop (s : Tracker T) :
  reachable T T_eq_dec s ->
  (history s = [] -> step T T_eq_dec Undo s = s) /\
  (future s = [] -> step T T_eq_dec Redo s = s).
Proof.
  intros Hr. destruct (reachable_inv s Hr) as [Hi _]. split; intros H.
  - apply step_undo_nil; assumption.
  - apply step_redo_nil; assumption.
Qed.

(** C10 (amended): the watch callback evicts the oldest record only when
    the history length equals the resolved capacity.  In every reachable
    state, a mutation that changes the source leaves, once settled:
    - with capacity 0, the history as it was (the callback returns first),
      whatever its length;
    - with a capacity [c] >= 1 and a history length other than [c] (shorter,
      or already longer), the record of the previous value prepended with
      nothing evicted, so a history past the capacity grows one further;
    - with a capacity [c] >= 1 equal to the history length, that record
      prepended after the oldest record is dropped;
    - with no finite capacity, that record prepended. *)
Theorem mutation_past_capacity_prepends (s : Tracker T) v :
  reachable T T_eq_dec s -> v <> source s ->
  let s' := step T T_eq_dec (Assign v) s in
  (capacity s = Fin 0 -> history s' = history s) /\
  (forall c, capacity s = Fin c -> 0 < c -> length (history s) <> c ->
     history s' = mkRecord (source s) (lastChanged s) :: history s) /\
  (forall c, capacity s = Fin c -> 0 < c -> length (history s) = c ->
     history s' = mkRecord (source s) (lastChanged s) :: removelast (history s)) /\
  (capacity s = Inf -> history s' = mkRecord (source s) (lastChanged s) :: history s).
Proof.
  intros Hr Hv. destruct (reachable_inv s Hr) as [Hi Hb]. cbv zeta.
  rewrite step_assign by assumption.
  split; [|split; [|split]].
  - intros Hc. rewrite Hc. reflexivity.
  - intros c Hc Hpos Hne.
    assert (E : Nat.eqb c (length (history s)) = false) by (apply Nat.eqb_neq; lia).
    assert (E0 : Nat.eqb c 0 = false) by (apply Nat.eqb_neq; lia).
    rewrite Hc. cbn [cap_is]. rewrite E0.
    cbn [history]. unfold cb_history. cbn [cap_is]. rewrite E. reflexivity.
  - intros c Hc Hpos Heq.
    assert (E : Nat.eqb c (length (history s)) = true) by (apply Nat.eqb_eq; lia).
    assert (E0 : Nat.eqb c 0 = false) by (apply Nat.eqb_neq; lia).
    rewrite Hc. cbn [cap_is]. rewrite E0.
    cbn [history]. unfold cb_history. cbn [cap_is]. rewrite E. reflexivity.
  - intros Hc. rewrite Hc. reflexivity.
Qed.

Lemma exceeds_le n m c : n <= m -> exceeds m c = false -> exceeds n c = false.
Proof.
  destruct c as [k|]; simpl; [|reflexivity].
  intros Hnm H. apply Nat.ltb_ge in H. apply Nat.ltb_ge. lia.
Qed.

Lemma slice0_prefix (A : Type) c (l : list A) : exists t, l = slice0 c l ++ t.
Proof.
  destruct c as [m|]; simpl.
  - exists (skipn m l). symmetry. apply firstn_skipn.
  - exists []. rewrite app_nil_r. reflexivity.
Qed.

Lemma cap_eqb_eq a b : cap_eqb a b = true -> a = b.
Proof.
  destruct a as [x|], b as [y|]; simpl; try discriminate; [|reflexivity].
  intros H. apply Nat.eqb_eq in H. subst. reflexivity.
Qed.

(** A settled state in which the capacity is [cap], the watchEffect tracks
    the history array, and history and future together fit in [cap]. *)
Lemma fixed_capacity_step a (s : Tracker T) cap :
  idle s -> capacity s = cap -> effectTracksHistory s = true ->
  exceeds (length (history s) + length (future s)) cap = false ->
  no_capacity_change [a] = true ->
  let s' := step T T_eq_dec a s in
  idle s' /\ capacity s' = cap /\ effectTracksHistory s' = true /\
  exceeds (length (history s') + length (future s')) cap = false.
Proof.
  intros Hi Hc Ht Hx Ha. cbv zeta.
  assert (Hb : bounded s).
  { intros _. apply (exceeds_le _ (length (history s) + length (future s))); [lia|].
    rewrite Hc. exact Hx. }
  destruct a as [v| | |c|d].
  - destruct (T_eq_dec v (source s)) as [->|Hv].
    + rewrite step_assign_same by exact Hi. exact (conj Hi (conj Hc (conj Ht Hx))).
    + rewrite step_assign by assumption.
      destruct (cap_is (capacity s) 0) eqn:H0;
        unfold idle in *; cbn -[cb_history length]; repeat split; auto.
      * cbn [length]. apply (exceeds_le _ (length (history s) + length (future s))); [lia|].
        exact Hx.
      * cbn [length]. rewrite Nat.add_0_r. rewrite <- Hc. apply cb_history_bounded; auto.
  - destruct (history s) as [|r rest] eqn:Hh.
    + rewrite step_undo_nil by assumption. rewrite Hh. exact (conj Hi (conj Hc (conj Ht Hx))).
    + rewrite (step_undo s r rest) by assumption.
      unfold idle in *; cbn [history future capacity effectTracksHistory queue ticks
        doingUndo doingRedo watchOld source]; repeat split; auto.
      cbn [length] in *. rewrite Nat.add_succ_r. exact Hx.
  - destruct (future s) as [|r rest] eqn:Hf.
    + rewrite step_redo_nil by assumption. rewrite Hf. exact (conj Hi (conj Hc (conj Ht Hx))).
    + rewrite (step_redo s r rest) by assumption. cbv zeta.
      cbn [length] in *. rewrite Nat.add_succ_r in Hx.
      rewrite Ht, Hc. cbn [andb].
      rewrite (exceeds_le (S (length (history s))) (S (length (history s) + length rest)) _
        ltac:(lia) Hx).
      unfold idle in *; cbn [history future capacity effectTracksHistory queue ticks
        doingUndo doingRedo watchOld source length]; repeat split; auto.
  - discriminate.
  - rewrite step_advance by assumption.
    unfold idle in *; cbn; intuition.
Qed.

(** In every settled state whose history is not empty, undo() makes the
    newest record's value current, removes that record, and pushes the
    previous current value, stamped with the time of the undo, in front of
    the future; [lastChanged] and the capacity are kept. *)
Theorem undo_moves_newest_record (s : Tracker T) r rest :
  reachable T T_eq_dec s -> history s = r :: rest ->
  let s' := step T T_eq_dec Undo s in
  source s' = value r /\ history s' = rest /\
  future s' = mkRecord (source s) (now s) :: future s /\
  lastChanged s' = lastChanged s /\ capacity s' = capacity s.
Proof.
  intros Hr Hh. destruct (reachable_inv s Hr) as [Hi Hb]. cbv zeta.
  rewrite (step_undo s r rest) by assumption. cbn. repeat split.
Qed.

(** In every settled state whose future is not empty, when one more
    history record still fits in the capacity, redo() makes the nearest
    future value current, removes it from the future, and pushes the
    previous current value, stamped with the time of the redo, in front of
    the history; [lastChanged] and the capacity are kept. *)
Theorem redo_moves_next_record (s : Tracker T) r rest :
  reachable T T_eq_dec s -> future s = r :: rest ->
  exceeds (S (length (history s))) (capacity s) = false ->
  let s' := step T T_eq_dec Redo s in
  source s' = value r /\ history s' = mkRecord (source s) (now s) :: history s /\
  future s' = rest /\ lastChanged s' = lastChanged s /\ capacity s' = capacity s.
Proof.
  intros Hr Hf Hx. destruct (reachable_inv s Hr) as [Hi _]. cbv zeta.
  rewrite (step_redo s r rest) by assumption. cbv zeta. cbn [length].
  rewrite Hx, andb_false_r. cbn. repeat split.
Qed.

Lemma timeline_undo (s : Tracker T) :
  reachable T T_eq_dec s -> timeline (step T T_eq_dec Undo s) = timeline s.
Proof.
  intros Hr. destruct (reachable_inv s Hr) as [Hi Hb].
  destruct (history s) as [|r rest] eqn:Hh.
  - rewrite step_undo_nil by assumption. reflexivity.
  - rewrite (step_undo s r rest) by assumption.
    unfold timeline, values. cbn [history source future]. rewrite Hh.
    cbn [map rev value]. rewrite <- app_assoc. reflexivity.
Qed.

Lemma timeline_redo (s : Tracker T) :
  reachable T T_eq_dec s ->
  exists dropped, timeline s = dropped ++ timeline (step T T_eq_dec Redo s).
Proof.
  intros Hr. destruct (reachable_inv s Hr) as [Hi _].
  destruct (future s) as [|r rest] eqn:Hf.
  - rewrite step_redo_nil by assumption. exists []. reflexivity.
  - rewrite (step_redo s r rest) by assumption. cbv zeta.
    set (nh := mkRecord (source s) (now s) :: history s).
    assert (Ht : timeline s = rev (values nh) ++ value r :: values rest).
    { unfold timeline, nh, values. rewrite Hf. cbn [map rev value].
      rewrite <- app_assoc. reflexivity. }
    destruct (effectTracksHistory s && exceeds (length nh) (capacity s)).
    + destruct (slice0_prefix _ (capacity s) nh) as [t Ht2].
      exists (rev (values t)). rewrite Ht. unfold timeline. cbn [history source future].
      rewrite Ht2 at 1. unfold values. rewrite map_app, rev_app_distr, <- app_assoc.
      reflexivity.
    + exists []. rewrite Ht. reflexivity.
Qed.

(** In every settled state, undo() only moves the cursor: the timeline
    (history oldest first, current value, future) is unchanged. *)
Theorem undo_preserves_timeline (s : Tracker T) :
  reachable T T_eq_dec s -> timeline (step T T_eq_dec Undo s) = timeline s.
Proof. intros Hr. exact (timeline_undo s Hr). Qed.

(** In every settled state, redo() moves the cursor and can only drop the
    oldest end of the timeline (when the capacity watchEffect truncates the
    history): the new timeline is a suffix of the old one. *)
Theorem redo_timeline_suffix (s : Tracker T) :
  reachable T T_eq_dec s ->
  exists dropped, timeline s = dropped ++ timeline (step T T_eq_dec Redo s).
Proof. intros Hr. exact (timeline_redo s Hr). Qed.

(** In every settled state with a capacity other than 0, a mutation that
    changes the source keeps the older records in their order: the new
    history values are the previous value followed by a prefix of the old
    history values (all of them, or all but the oldest on eviction). *)
Theorem mutation_keeps_history_order (s : Tracker T) v :
  reachable T T_eq_dec s -> v <> source s -> capacity s <> Fin 0 ->
  exists k, values (history (step T T_eq_dec (Assign v) s)) =
            source s :: firstn k (values (history s)).
Proof.
  intros Hr Hv Hc. destruct (reachable_inv s Hr) as [Hi Hb].
  rewrite step_assign by assumption.
  destruct (cap_is (capacity s) 0) eqn:H0.
  - destruct (capacity s) as [[|m]|]; simpl in H0; try discriminate. congruence.
  - cbn [history]. unfold cb_history, values. cbn [map value].
    destruct (cap_is (capacity s) (length (history s))).
    + exists (pred (length (history s))). rewrite removelast_firstn_len, firstn_map.
      reflexivity.
    + exists (length (history s)). rewrite firstn_map, firstn_all. reflexivity.
Qed.

(** From a freshly created tracker, as long as the capacity never changes,
    every settled state keeps the capacity and history and future together
    never exceed it; in particular the history never exceeds the
    capacity. *)
Theorem fixed_capacity_history_bounded src cap t l :
  no_capacity_change l = true ->
  let s := run T T_eq_dec l (useRefHistory T src cap t) in
  capacity s = cap /\ exceeds (length (history s) + length (future s)) cap = false.
Proof.
  intros Hl. cbv zeta.
  assert (H0 : let s := useRefHistory T src cap t in
    idle s /\ capacity s = cap /\ effectTracksHistory s = true /\
    exceeds (length (history s) + length (future s)) cap = false).
  { cbv zeta. destruct (init_inv src cap t) as [Hi _].
    destruct cap; repeat split; try exact Hi; reflexivity. }
  revert H0 Hl. generalize (useRefHistory T src cap t) as s.
  induction l as [|a l IH]; intros s (Hi & Hc & Ht & Hx) Hl.
  - split; assumption.
  - rewrite run_cons. apply IH.
    + apply fixed_capacity_step; try assumption. destruct a; try reflexivity; discriminate.
    + destruct a; simpl in Hl; try discriminate; exact Hl.
Qed.

(** In every settled state whose future is not empty, when one more
    history record fits in the capacity, redo() followed by undo() gives
    back the source value and history and future holding the same values
    in the same order. *)
Theorem redo_undo_roundtrip (s : Tracker T) :
  reachable T T_eq_dec s -> future s <> [] ->
  exceeds (S (length (history s))) (capacity s) = false ->
  let s' := step T T_eq_dec Undo (step T T_eq_dec Redo s) in
  source s' = source s /\ values (history s') = values (history s) /\
  values (future s') = values (future s).
Proof.
  intros Hr Hne Hx. destruct (reachable_inv s Hr) as [Hi Hb]. cbv zeta.
  destruct (future s) as [|r rest] eqn:Hf; [congruence|].
  rewrite (step_redo s r rest) by assumption. cbv zeta. cbn [length].
  rewrite Hx, andb_false_r.
  assert (Hi' : idle (mkTracker T (value r) (mkRecord (source s) (now s) :: history s) rest
     false false (lastChanged s) (capacity s) (now s) (value r) (effectTracksHistory s) [] [])).
  { unfold idle; cbn; repeat split. }
  assert (Hb' : bounded (mkTracker T (value r) (mkRecord (source s) (now s) :: history s) rest
     false false (lastChanged s) (capacity s) (now s) (value r) (effectTracksHistory s) [] [])).
  { intros _. exact Hx. }
  rewrite (step_undo _ (mkRecord (source s) (now s)) (history s) Hi' Hb' eq_refl).
  cbn. repeat split.
Qed.

(** In every settled state, assigning the current value (no change for the
    ref) records nothing: the state is unchanged. *)
Theorem assign_current_value_noop (s : Tracker T) :
  reachable T T_eq_dec s -> step T T_eq_dec (Assign (source s)) s = s.
Proof.
  intros Hr. apply step_assign_same. apply (reachable_inv s Hr).
Qed.

(** In every settled state, after a mutation that changes the source,
    redo() has nothing to restore and changes nothing. *)
Theorem redo_after_mutation_noop (s : Tracker T) v :
  reachable T T_eq_dec s -> v <> source s ->
  let s1 := step T T_eq_dec (Assign v) s in step T T_eq_dec Redo s1 = s1.
Proof.
  intros Hr Hv. cbv zeta.
  assert (Hr1 : reachable T T_eq_dec (step T T_eq_dec (Assign v) s)) by (constructor; exact Hr).
  apply step_redo_nil; [apply (reachable_inv _ Hr1)|].
  destruct (reachable_inv s Hr) as [Hi Hb].
  rewrite step_assign by assumption.
  destruct (cap_is (capacity s) 0); reflexivity.
Qed.

(** In every settled state, a capacity change to a value the history does
    not exceed (for example a larger capacity) keeps the source, the
    history and the future. *)
Theorem capacity_change_keeps_fitting_history (s : Tracker T) c :
  reachable T T_eq_dec s -> exceeds (length (history s)) c = false ->
  let s' := step T T_eq_dec (SetCapacity c) s in
  history s' = history s /\ source s' = source s /\ future s' = future s /\ capacity s' = c.
Proof.
  intros Hr Hx. destruct (reachable_inv s Hr) as [Hi _]. cbv zeta.
  rewrite step_set_capacity by exact Hi.
  destruct (cap_eqb c (capacity s)) eqn:E.
  - apply cap_eqb_eq in E. auto.
  - rewrite Hx. cbn. auto.
Qed.

Lemma nra_suffix (a b : list T) :
  no_repeat_adjacent T T_eq_dec (a ++ b) = true -> no_repeat_adjacent T T_eq_dec b = true.
Proof.
  induction a as [|x a IH]; intros H; [exact H|].
  apply IH. simpl in H. destruct (a ++ b) as [|y l]; [reflexivity|].
  apply andb_prop in H. exact (proj2 H).
Qed.

Lemma nra_prefix (a b : list T) :
  no_repeat_adjacent T T_eq_dec (a ++ b) = true -> no_repeat_adjacent T T_eq_dec a = true.
Proof.
  induction a as [|x a IH]; intros H; [reflexivity|].
  destruct a as [|y a']; [reflexivity|].
  change (hasChanged T T_eq_dec x y && no_repeat_adjacent T T_eq_dec ((y :: a') ++ b) = true) in H.
  apply andb_prop in H as [H1 H2].
  change (hasChanged T T_eq_dec x y && no_repeat_adjacent T T_eq_dec (y :: a') = true).
  rewrite H1, (IH H2). reflexivity.
Qed.

Lemma nra_snoc (l : list T) x v :
  no_repeat_adjacent T T_eq_dec (l ++ [x]) = true -> v <> x ->
  no_repeat_adjacent T T_eq_dec (l ++ [x; v]) = true.
Proof.
  induction l as [|y l IH]; intros H Hv.
  - change (hasChanged T T_eq_dec x v && true = true).
    unfold hasChanged. destruct (T_eq_dec x v); [congruence|reflexivity].
  - destruct l as [|z l].
    + change (hasChanged T T_eq_dec y x && no_repeat_adjacent T T_eq_dec ([] ++ [x]) = true) in H.
      change (hasChanged T T_eq_dec y x && no_repeat_adjacent T T_eq_dec ([] ++ [x; v]) = true).
      apply andb_prop in H as [H1 H2]. rewrite H1, (IH H2 Hv). reflexivity.
    + change (hasChanged T T_eq_dec y z && no_repeat_adjacent T T_eq_dec ((z :: l) ++ [x]) = true) in H.
      change (hasChanged T T_eq_dec y z && no_repeat_adjacent T T_eq_dec ((z :: l) ++ [x; v]) = true).
      apply andb_prop in H as [H1 H2]. rewrite H1, (IH H2 Hv). reflexivity.
Qed.

Lemma nra_head x y (l : list T) :
  no_repeat_adjacent T T_eq_dec (x :: y :: l) = true -> x <> y.
Proof.
  change (hasChanged T T_eq_dec x y && no_repeat_adjacent T T_eq_dec (y :: l) = true -> x <> y).
  unfold hasChanged. destruct (T_eq_dec x y); [discriminate|auto].
Qed.

Lemma timeline_set_capacity (s : Tracker T) c :
  idle s -> exists dropped, timeline s = dropped ++ timeline (step T T_eq_dec (SetCapacity c) s).
Proof.
  intros Hi. rewrite step_set_capacity by exact Hi.
  destruct (cap_eqb c (capacity s)); [exists []; reflexivity|].
  destruct (exceeds (length (history s)) c); [|exists []; reflexivity].
  destruct (slice0_prefix _ c (history s)) as [t Ht].
  exists (rev (values t)). unfold timeline. cbn [history source future].
  rewrite Ht at 1. unfold values. rewrite map_app, rev_app_distr, <- app_assoc.
  reflexivity.
Qed.

(** The timeline invariant kept by every action that does not set the
    capacity to 0: with capacity 0 there is neither history nor future, and
    no two neighbouring timeline values are equal. *)
Lemma no_repeat_step a (s : Tracker T) :
  reachable T T_eq_dec s -> no_zero_capacity [a] = true ->
  (capacity s = Fin 0 -> history s = [] /\ future s = []) ->
  no_repeat_adjacent T T_eq_dec (timeline s) = true ->
  let s' := step T T_eq_dec a s in
  (capacity s' = Fin 0 -> history s' = [] /\ future s' = []) /\
  no_repeat_adjacent T T_eq_dec (timeline s') = true.
Proof.
  intros Hr Ha Hz Hn. destruct (reachable_inv s Hr) as [Hi Hb]. cbv zeta.
  destruct a as [v| | |c|d].
  - destruct (T_eq_dec v (source s)) as [->|Hv].
    + rewrite step_assign_same by exact Hi. auto.
    + rewrite step_assign by assumption.
      destruct (cap_is (capacity s) 0) eqn:H0.
      * assert (Hc : capacity s = Fin 0)
          by (destruct (capacity s) as [[|m]|]; simpl in H0; congruence).
        destruct (Hz Hc) as [Hh _]. cbn [capacity history future]. rewrite Hh.
        split; [auto|reflexivity].
      * cbn [capacity history future]. split.
        { intros Hc. rewrite Hc in H0. discriminate. }
        set (h' := if cap_is (capacity s) (length (history s))
                   then removelast (history s) else history s).
        assert (Hp : exists t, history s = h' ++ t).
        { unfold h'. destruct (cap_is (capacity s) (length (history s))).
          - exists (skipn (pred (length (history s))) (history s)).
            rewrite removelast_firstn_len. symmetry. apply firstn_skipn.
          - exists []. rewrite app_nil_r. reflexivity. }
        destruct Hp as [t Ht].
        unfold timeline in Hn.
        rewrite Ht in Hn. unfold values in Hn. rewrite map_app, rev_app_distr in Hn.
        rewrite <- app_assoc in Hn. apply nra_suffix in Hn.
        replace (rev (map value h') ++ source s :: map value (future s))
          with ((rev (map value h') ++ [source s]) ++ map value (future s)) in Hn
          by (rewrite <- app_assoc; reflexivity).
        apply nra_prefix in Hn.
        unfold timeline, cb_history, values. cbn [history source future map value rev].
        fold h'. rewrite <- app_assoc. apply nra_snoc; assumption.
  - destruct (history s) as [|r rest] eqn:Hh.
    + rewrite step_undo_nil by assumption. rewrite Hh. auto.
    + rewrite (timeline_undo s Hr). split; [|exact Hn].
      rewrite (step_undo s r rest) by assumption. cbn [capacity].
      intros Hc. destruct (Hz Hc) as [Hh' _]. congruence.
  - destruct (future s) as [|r rest] eqn:Hf.
    + rewrite step_redo_nil by assumption. rewrite Hf. auto.
    + destruct (timeline_redo s Hr) as [d Hd]. split.
      * rewrite (step_redo s r rest) by assumption. cbv zeta.
        destruct (_ && _); cbn [capacity];
          intros Hc; destruct (Hz Hc) as [_ Hf']; congruence.
      * rewrite Hd in Hn. exact (nra_suffix _ _ Hn).
  - assert (Hc0 : c <> Fin 0) by (intros ->; discriminate).
    destruct (timeline_set_capacity s c Hi) as [d Hd]. split.
    + rewrite step_set_capacity by exact Hi.
      destruct (cap_eqb c (capacity s)) eqn:E; [exact Hz|].
      destruct (exceeds (length (history s)) c); cbn [capacity]; congruence.
    + rewrite Hd in Hn. exact (nra_suffix _ _ Hn).
  - rewrite step_advance by assumption. split; [exact Hz|exact Hn].
Qed.

(** C9 (amended): history is not kept free of the current value, but as
    long as no action sets the capacity to 0, at every settling point after
    any sequence of mutations, undos, redos, capacity changes and time
    advances, no two neighbouring values of the timeline (history oldest
    first, current value, future) are equal: the newest history record's
    value, and the nearest future record's value, differ from the current
    value. *)
Theorem newest_record_differs_from_current src cap t l :
  no_zero_capacity l = true ->
  let s := run T T_eq_dec l (useRefHistory T src cap t) in
  no_repeat_adjacent T T_eq_dec (timeline s) = true /\
  (forall r rest, history s = r :: rest -> value r <> source s) /\
  (forall r rest, future s = r :: rest -> value r <> source s).
Proof.
  intros Hl. cbv zeta.
  assert (Hinv : forall s, reachable T T_eq_dec s ->
    (capacity s = Fin 0 -> history s = [] /\ future s = []) ->
    no_repeat_adjacent T T_eq_dec (timeline s) = true ->
    no_zero_capacity l = true ->
    no_repeat_adjacent T T_eq_dec (timeline (run T T_eq_dec l s)) = true).
  { clear Hl. induction l as [|a l IH]; intros s Hr Hz Hn Hl; [exact Hn|].
    rewrite run_cons.
    assert (Ha : no_zero_capacity [a] = true)
      by (destruct a as [| | |[[|m]|]|]; simpl in Hl |- *; congruence).
    destruct (no_repeat_step a s Hr Ha Hz Hn) as [Hz' Hn'].
    apply IH; [constructor; exact Hr|exact Hz'|exact Hn'|].
    destruct a as [| | |[[|m]|]|]; simpl in Hl; congruence. }
  assert (Hn : no_repeat_adjacent T T_eq_dec
                 (timeline (run T T_eq_dec l (useRefHistory T src cap t))) = true).
  { apply Hinv; [constructor| |destruct cap; reflexivity|exact Hl].
    destruct cap; intros; split; reflexivity. }
  split; [exact Hn|]. split.
  - intros r rest Hh. unfold timeline in Hn. rewrite Hh in Hn. unfold values in Hn.
    cbn [map rev] in Hn. rewrite <- app_assoc in Hn. apply nra_suffix in Hn.
    exact (nra_head _ _ _ Hn).
  - intros r rest Hf. unfold timeline in Hn. rewrite Hf in Hn. unfold values in Hn.
    cbn [map] in Hn. apply nra_suffix in Hn.
    intros E. exact (nra_head _ _ _ Hn (eq_sym E)).
Qed.

End Proofs.

Local Open Scope Z_scope.

Definition zrun := run Z Z.eq_dec.
Definition zinit := useRefHistory Z.

Definition zstep := step Z Z.eq_dec.

(** C2: the concrete scenario.  Capacity 4, source 0; assigning 1, 2, 3
    gives history [2;1;0] and source 3; undo() gives source 2, history
    [1;0], future [3]; redo() gives source 3 and history and future with the
    values they had before the undo. *)
Theorem scenario_undo_redo :
  let s3 := zrun [Assign 1; Assign 2; Assign 3] (zinit 0 (Fin 4) 0) in
  let s4 := zstep Undo s3 in
  let s5 := zstep Redo s4 in
  values (history s3) = [2; 1; 0] /\ source s3 = 3 /\
  source s4 = 2 /\ values (history s4) = [1; 0] /\ values (future s4) = [3] /\
  source s5 = 3 /\ values (history s5) = values (history s3) /\
  values (future s5) = values (future s3).
Proof. vm_compute. repeat split. Qed.

(** C6 (code defect): the history can stay longer than the capacity after
    settling.  Capacity 4, source 0; assign 1, 2, 3, 4; undo(); the capacity
    becomes 2, which truncates the history to two records and leaves the
    watchEffect tracking only the replaced array; redo() then prepends a
    record, no effect runs, and three records remain under capacity 2. *)
Theorem history_exceeds_capacity_after_redo :
  let s := zrun [Assign 1; Assign 2; Assign 3; Assign 4; Undo; SetCapacity (Fin 2); Redo]
                (zinit 0 (Fin 4) 0) in
  capacity s = Fin 2 /\ length (history s) = 3%nat /\ values (history s) = [3; 2; 1].
Proof. vm_compute. repeat split. Qed.

(** C7 (code defect): [lastChanged] is updated only by the watch callback,
    not by undo()/redo(), although they change the source.  Source 0 at time
    0; at time 10 assign 1; at time 20 undo() makes 0 current again; at time
    30 assign 5.  The record pushed for 0 carries 10, the time of the last
    external mutation, not 20, the time 0 became current. *)
Theorem record_timestamp_after_undo :
  let s2 := zrun [Advance 10; Assign 1; Advance 10; Undo] (zinit 0 (Fin 4) 0) in
  let s3 := zrun [Advance 10; Assign 5] s2 in
  source s2 = 0 /\ now s2 = 20 /\ lastChanged s2 = 10 /\
  history s3 = [mkRecord 0 10].
Proof. vm_compute. repeat split. Qed.

(** C9 counterexample: source 0, unbounded capacity; assigning 1 and then 0
    leaves history [1; 0] while the source is 0 again.  And once the
    capacity is set to 0 the current value can even be the newest record:
    capacity 4, source 0; assign 1, 2, 3; undo() twice; the capacity becomes
    0 (history truncated to []); redo() leaves the record of 1 under
    capacity 0; assigning 1 then adds nothing, so history is [1] while the
    source is 1. *)
Lemma current_value_found_in_history :
  (let s := zrun [Assign 1; Assign 0] (zinit 0 Inf 0) in
   reachable Z Z.eq_dec s /\ source s = 0 /\ values (history s) = [1; 0] /\
   In (source s) (values (history s))) /\
  (let s := zrun [Assign 1; Assign 2; Assign 3; Undo; Undo; SetCapacity (Fin 0); Redo; Assign 1]
                 (zinit 0 (Fin 4) 0) in
   reachable Z Z.eq_dec s /\ capacity s = Fin 0 /\ source s = 1 /\ values (history s) = [1]).
Proof.
  split.
  - split; [apply reachable_run; constructor|].
    vm_compute. split; [reflexivity|]. split; [reflexivity|]. right; left; reflexivity.
  - split; [apply reachable_run; constructor|].
    vm_compute. repeat split.
Qed.

(** C10 counterexample: with capacity 0 the callback adds nothing even when
    the history is longer than the capacity.  Capacity 4, source 0; assign 1
    and 2; undo(); the capacity becomes 0 (history truncated to []); redo()
    leaves one record under capacity 0; assigning 9 then keeps that one
    record instead of prepending another. *)
Lemma no_prepend_past_capacity_zero :
  let s := zrun [Assign 1; Assign 2; Undo; SetCapacity (Fin 0); Redo] (zinit 0 (Fin 4) 0) in
  capacity s = Fin 0 /\ length (history s) = 1%nat /\ source s = 2 /\
  length (history (zstep (Assign 9) s)) = length (history s).
Proof. vm_compute. repeat split. Qed.

(** Witnesses: each theorem with hypotheses applied to a concrete tracker. *)

Lemma history_length_is_min_mutations_capacity_witness :
  all_change Z Z.eq_dec 0 [1; 2; 3] = true /\
  length (history (zrun (map Assign [1; 2; 3]) (zinit 0 (Fin 2) 0))) = cap_min 3 (Fin 2).
Proof.
  split; [reflexivity|].
  apply (history_length_is_min_mutations_capacity Z Z.eq_dec 0 (Fin 2) 0 [1; 2; 3]).
  reflexivity.
Defined.

Lemma external_mutation_clears_future_witness :
  let s := zrun [Assign 1; Assign 2; Assign 3; Undo; Undo; SetCapacity (Fin 0); Redo]
                (zinit 0 (Fin 4) 0) in
  capacity s = Fin 0 /\ values (history s) = [1] /\ values (future s) = [3] /\
  (future (zstep (Assign 7) s) = [] /\
   (capacity s = Fin 0 -> history (zstep (Assign 7) s) = history s)).
Proof.
  cbv zeta.
  split; [vm_compute; reflexivity|]. split; [vm_compute; reflexivity|].
  split; [vm_compute; reflexivity|].
  apply (external_mutation_clears_future Z Z.eq_dec
           (zrun [Assign 1; Assign 2; Assign 3; Undo; Undo; SetCapacity (Fin 0); Redo]
                 (zinit 0 (Fin 4) 0)) 7).
  - apply reachable_run. constructor.
  - vm_compute. discriminate.
Defined.

Lemma undo_redo_roundtrip_witness :
  let s := zrun [Assign 1; Assign 2] (zinit 0 (Fin 4) 0) in
  let s' := zstep Redo (zstep Undo s) in
  source s' = source s /\ values (history s') = values (history s) /\
  values (future s') = values (future s).
Proof.
  apply (undo_redo_roundtrip Z Z.eq_dec (zrun [Assign 1; Assign 2] (zinit 0 (Fin 4) 0))).
  - apply reachable_run. constructor.
  - vm_compute. discriminate.
Defined.

Lemma capacity_shrink_truncates_witness :
  let s := zrun [Assign 1; Assign 2; Assign 3] (zinit 0 (Fin 4) 0) in
  let s1 := zstep (SetCapacity (Fin 1)) s in
  history s1 = firstn 1 (history s) /\ source s1 = source s /\ future s1 = future s /\
  forall c2, exists dropped, history s1 = history (zstep (SetCapacity c2) s1) ++ dropped.
Proof.
  apply (capacity_shrink_truncates Z Z.eq_dec (zrun [Assign 1; Assign 2; Assign 3] (zinit 0 (Fin 4) 0)) 1).
  - apply reachable_run. constructor.
  - vm_compute. discriminate.
  - vm_compute. lia.
Defined.

Lemma undo_redo_empty_noop_witness :
  (history (zinit 0 Inf 0) = [] -> zstep Undo (zinit 0 Inf 0) = zinit 0 Inf 0) /\
  (future (zinit 0 Inf 0) = [] -> zstep Redo (zinit 0 Inf 0) = zinit 0 Inf 0).
Proof.
  apply (undo_redo_empty_noop Z Z.eq_dec (zinit 0 Inf 0)). constructor.
Defined.

Lemma newest_record_differs_from_current_witness :
  let s := zrun [Assign 1; Assign 2; Assign 1; Undo; Undo; Redo; SetCapacity (Fin 1); Redo;
                 Assign 3; Undo] (zinit 0 (Fin 3) 0) in
  no_repeat_adjacent Z Z.eq_dec (timeline s) = true /\
  (forall r rest, history s = r :: rest -> value r <> source s) /\
  (forall r rest, future s = r :: rest -> value r <> source s).
Proof.
  apply (newest_record_differs_from_current Z Z.eq_dec 0 (Fin 3) 0
           [Assign 1; Assign 2; Assign 1; Undo; Undo; Redo; SetCapacity (Fin 1); Redo;
            Assign 3; Undo]).
  reflexivity.
Defined.

Lemma mutation_past_capacity_prepends_witness :
  let s := zrun [Assign 1; Assign 2; Assign 3; Assign 4; Undo; SetCapacity (Fin 2); Redo]
                (zinit 0 (Fin 4) 0) in
  let s' := zstep (Assign 9) s in
  (capacity s = Fin 0 -> history s' = history s) /\
  (forall c, capacity s = Fin c -> (0 < c)%nat -> length (history s) <> c ->
     history s' = mkRecord (source s) (lastChanged s) :: history s) /\
  (forall c, capacity s = Fin c -> (0 < c)%nat -> length (history s) = c ->
     history s' = mkRecord (source s) (lastChanged s) :: removelast (history s)) /\
  (capacity s = Inf -> history s' = mkRecord (source s) (lastChanged s) :: history s).
Proof.
  apply (mutation_past_capacity_prepends Z Z.eq_dec
           (zrun [Assign 1; Assign 2; Assign 3; Assign 4; Undo; SetCapacity (Fin 2); Redo]
                 (zinit 0 (Fin 4) 0)) 9).
  - apply reachable_run. constructor.
  - vm_compute. discriminate.
Defined.

Lemma undo_moves_newest_record_witness :
  let s := zrun [Assign 1; Assign 2] (zinit 0 (Fin 4) 0) in
  let s' := zstep Undo s in
  source s' = value (mkRecord 1 0) /\ history s' = [mkRecord 0 0] /\
  future s' = mkRecord (source s) (now s) :: future s /\
  lastChanged s' = lastChanged s /\ capacity s' = capacity s.
Proof.
  apply (undo_moves_newest_record Z Z.eq_dec (zrun [Assign 1; Assign 2] (zinit 0 (Fin 4) 0))
           (mkRecord 1 0) [mkRecord 0 0]).
  - apply reachable_run. constructor.
  - vm_compute. reflexivity.
Defined.

Lemma redo_moves_next_record_witness :
  let s := zrun [Assign 1; Assign 2; Undo] (zinit 0 (Fin 4) 0) in
  let s' := zstep Redo s in
  source s' = value (mkRecord 2 0) /\ history s' = mkRecord (source s) (now s) :: history s /\
  future s' = [] /\ lastChanged s' = lastChanged s /\ capacity s' = capacity s.
Proof.
  apply (redo_moves_next_record Z Z.eq_dec (zrun [Assign 1; Assign 2; Undo] (zinit 0 (Fin 4) 0))
           (mkRecord 2 0) []).
  - apply reachable_run. constructor.
  - vm_compute. reflexivity.
  - vm_compute. reflexivity.
Defined.

Lemma undo_preserves_timeline_witness :
  let s := zrun [Assign 1; Assign 2] (zinit 0 (Fin 4) 0) in
  timeline (zstep Undo s) = timeline s.
Proof.
  apply (undo_preserves_timeline Z Z.eq_dec (zrun [Assign 1; Assign 2] (zinit 0 (Fin 4) 0))).
  apply reachable_run. constructor.
Defined.

Lemma redo_timeline_suffix_witness :
  let s := zrun [Assign 1; Assign 2; Assign 3; Assign 4; Undo; SetCapacity (Fin 2)]
                (zinit 0 (Fin 4) 0) in
  exists dropped, timeline s = dropped ++ timeline (zstep Redo s).
Proof.
  apply (redo_timeline_suffix Z Z.eq_dec
           (zrun [Assign 1; Assign 2; Assign 3; Assign 4; Undo; SetCapacity (Fin 2)]
                 (zinit 0 (Fin 4) 0))).
  apply reachable_run. constructor.
Defined.

Lemma mutation_keeps_history_order_witness :
  let s := zrun [Assign 1; Assign 2] (zinit 0 (Fin 2) 0) in
  exists k, values (history (zstep (Assign 3) s)) = source s :: firstn k (values (history s)).
Proof.
  apply (mutation_keeps_history_order Z Z.eq_dec (zrun [Assign 1; Assign 2] (zinit 0 (Fin 2) 0)) 3).
  - apply reachable_run. constructor.
  - vm_compute. discriminate.
  - vm_compute. discriminate.
Defined.

Lemma fixed_capacity_history_bounded_witness :
  let s := zrun [Assign 1; Assign 2; Undo; Redo; Redo; Assign 3] (zinit 0 (Fin 2) 0) in
  capacity s = Fin 2 /\ exceeds (length (history s) + length (future s)) (Fin 2) = false.
Proof.
  apply (fixed_capacity_history_bounded Z Z.eq_dec 0 (Fin 2) 0
           [Assign 1; Assign 2; Undo; Redo; Redo; Assign 3]).
  reflexivity.
Defined.

Lemma redo_undo_roundtrip_witness :
  let s := zrun [Assign 1; Assign 2; Undo] (zinit 0 (Fin 4) 0) in
  let s' := zstep Undo (zstep Redo s) in
  source s' = source s /\ values (history s') = values (history s) /\
  values (future s') = values (future s).
Proof.
  apply (redo_undo_roundtrip Z Z.eq_dec (zrun [Assign 1; Assign 2; Undo] (zinit 0 (Fin 4) 0))).
  - apply reachable_run. constructor.
  - vm_compute. discriminate.
  - vm_compute. reflexivity.
Defined.

Lemma assign_current_value_noop_witness :
  let s := zrun [Assign 1] (zinit 0 (Fin 4) 0) in
  zstep (Assign (source s)) s = s.
Proof.
  apply (assign_current_value_noop Z Z.eq_dec (zrun [Assign 1] (zinit 0 (Fin 4) 0))).
  apply reachable_run. constructor.
Defined.

Lemma redo_after_mutation_noop_witness :
  let s1 := zstep (Assign 5) (zrun [Assign 1; Assign 2; Undo] (zinit 0 (Fin 4) 0)) in
  zstep Redo s1 = s1.
Proof.
  apply (redo_after_mutation_noop Z Z.eq_dec (zrun [Assign 1; Assign 2; Undo] (zinit 0 (Fin 4) 0)) 5).
  - apply reachable_run. constructor.
  - vm_compute. discriminate.
Defined.

Lemma capacity_change_keeps_fitting_history_witness :
  let s := zrun [Assign 1; Assign 2] (zinit 0 (Fin 2) 0) in
  let s' := zstep (SetCapacity Inf) s in
  history s' = history s /\ source s' = source s /\ future s' = future s /\ capacity s' = Inf.
Proof.
  apply (capacity_change_keeps_fitting_history Z Z.eq_dec
           (zrun [Assign 1; Assign 2] (zinit 0 (Fin 2) 0)) Inf).
  - apply reachable_run. constructor.
  - reflexivity.
Defined.
